(** * Model geometry construction (ModelGeo notebook): nodes, beams, columns

    A shallow embedding of the three generator cells of the notebook
    (the [NODES], [BEAMS] and [COLUMNS] cells) and the properties of the
    identifier scheme they share.

    Numbers.  The loop counters [i], [j], [k] and the element identifiers
    [mID] are Python integers, modelled as [Z].  Every quantity that goes
    through the true division [/] is a Python float; floats are modelled
    here as exact rationals in canonical form ([Qc]), so that two keys of
    a dictionary are the same key exactly when they are numerically equal,
    as for Python's numeric keys.  Rounding of floats is not modelled.

    Dictionaries are [gmap]s; [D[key] = value] is [<[key := value]> D],
    which overwrites an existing entry, as the Python assignment does. *)

From Stdlib Require Import ZArith QArith Qcanon Qround Lia Lra Psatz.
From stdpp Require Import base numbers list list_numbers gmap strings.

Local Open Scope Z_scope.

(** ** Python runtime pieces *)

Module Py.

(** The only exception the generator cells can raise on numbers. *)
Inductive exn : Type := ZeroDivisionError.

(** Evaluation of an expression: a value or a raised exception. *)
Inductive result (A : Type) : Type :=
| Ok (a : A)
| Raise (e : exn).
Arguments Ok {A} a.
Arguments Raise {A} e.

(** Execution of a statement on a store [S]: the final store, or the
    exception together with the store as it was when it was raised. *)
Inductive outcome (S : Type) : Type :=
| Done (s : S)
| Raised (e : exn) (s : S).
Arguments Done {S} s.
Arguments Raised {S} e s.

Definition bind {A B} (r : result A) (f : A → result B) : result B :=
  match r with
  | Ok a => f a
  | Raise e => Raise e
  end.

(** Evaluate an expression, then continue with the statement [k]. *)
Definition eval {A S} (r : result A) (k : A → S → outcome S) (s : S)
  : outcome S :=
  match r with
  | Ok a => k a s
  | Raise e => Raised e s
  end.

(** Integers used in float arithmetic. *)
Definition float (z : Z) : Qc := Qc_of_Z z.

(** [a / b], Python's true division. *)
Definition div (a b : Qc) : result Qc :=
  if decide (b = 0%Qc) then Raise ZeroDivisionError else Ok (a / b)%Qc.

(** [math.ceil]. *)
Definition ceil (q : Qc) : Z := Qceiling q.

(** [range(lo, hi)]. *)
Definition range (lo hi : Z) : list Z := seqZ lo (hi - lo).

(** [for x in l: body], stopping at the first exception. *)
Fixpoint for_each {S} (l : list Z) (body : Z → S → outcome S) (s : S)
  : outcome S :=
  match l with
  | [] => Done s
  | x :: l' =>
      match body x s with
      | Done s' => for_each l' body s'
      | Raised e s' => Raised e s'
      end
  end.

(** [for x in range(lo, hi): body], where the bound [hi] is an expression
    evaluated once, when the loop is entered. *)
Definition for_range {S} (lo : Z) (hi : result Z)
    (body : Z → S → outcome S) : S → outcome S :=
  eval hi (λ h, for_each (range lo h) body).

End Py.
Export Py.

Notation "'let!' x ':=' e 'in' k" := (eval e (λ x, k))
  (at level 10, x name, e at level 100, k at level 200, only parsing).

(** ** Input variables *)

Record Params : Type := mkParams {
  storyHeight : Qc;
  numStories : Qc;
  x_length : Qc;
  y_length : Qc;
  baySizeX : Qc;
  baySizeY : Qc;
  beamSpacingX : Qc;
  beamSpacingY : Qc
}.

(** The notebook's example building. *)
Definition example : Params :=
  mkParams (float 18) (float 4) (float 120) (float 120)
           (float 30) (float 30) (float 30) (float 10).

(** ** The NODES cell *)

Section Nodes.
Variable p : Params.

Local Open Scope Qc_scope.

(** [n=(1000*i)+(j-1)*(y_length/beamSpacingY+1)+k], given the value [r]
    of [y_length/beamSpacingY]. *)
Definition node_id (r : Qc) (i j k : Z) : Qc :=
  float (1000 * i) + float (j - 1) * (r + 1) + float k.

(** [[x,y,z]] of the loop body. *)
Definition node_xyz (i j k : Z) : list Qc :=
  [ float (j - 1) * beamSpacingX p;
    float (k - 1) * beamSpacingY p;
    float (i - 1) * storyHeight p ].

Definition NODES_body (i j k : Z) (NODES : gmap Qc (list Qc))
  : outcome (gmap Qc (list Qc)) :=
  (let! r := div (y_length p) (beamSpacingY p) in
   λ NODES, Done (<[node_id r i j k := node_xyz i j k]> NODES)) NODES.

Definition NODES_from (NODES : gmap Qc (list Qc))
  : outcome (gmap Qc (list Qc)) :=
  for_range 1 (Ok (ceil (numStories p + 1))) (λ i,
    for_range 1 (bind (div (x_length p) (beamSpacingX p))
                      (λ q, Ok (ceil q + 2)%Z)) (λ j,
      for_range 1 (bind (div (y_length p) (beamSpacingY p))
                        (λ q, Ok (ceil q + 2)%Z)) (λ k,
        NODES_body i j k))) NODES.

(** [NODES={}] followed by the loops. *)
Definition NODES : outcome (gmap Qc (list Qc)) := NODES_from ∅.

End Nodes.

(** ** Members (beams and columns) *)

(** The fifteen entries of a row of [BEAMS] or [COLUMNS], in order. *)
Record member : Type := mkMember {
  nodeA : Qc;
  nodeB : Qc;
  typ : Z;
  sectID : Z;
  rot : Z;
  fixA : string;
  fixB : string;
  offAX : Z;
  offAY : Z;
  offAZ : Z;
  offBX : Z;
  offBY : Z;
  offBZ : Z;
  cbl : Z;
  tc : Z
}.

#[global] Instance member_eq_dec : EqDecision member.
Proof. solve_decision. Defined.

(** ** The BEAMS cell *)

Section Beams.
Variable p : Params.

Local Open Scope Qc_scope.

(** The row of a beam from [a] to [b]. *)
Definition beam (a b : Qc) : member :=
  mkMember a b 1 1 0 "FFFFFR" "FFFFFR" 0 0 0 0 0 0 0 0.

(** [nodeA=(1000*(i+1))+k+(j-1)*(y_length/beamSpacingY+1)] *)
Definition beam_nodeA (r : Qc) (i j k : Z) : Qc :=
  float (1000 * (i + 1) + k) + float (j - 1) * (r + 1).

(** First pass: [mID=(10000*(i+1))+(1000*j)+k], [nodeB=nodeA+1]. *)
Definition passA_mID (i j k : Z) : Z := (10000 * (i + 1) + 1000 * j + k)%Z.

Definition passA_row (r : Qc) (i j k : Z) : member :=
  let a := beam_nodeA r i j k in beam a (a + 1).

Definition passA_body (i j k : Z) (BEAMS : gmap Z member)
  : outcome (gmap Z member) :=
  (let! r := div (y_length p) (beamSpacingY p) in
   λ BEAMS, Done (<[passA_mID i j k := passA_row r i j k]> BEAMS)) BEAMS.

Definition passA (BEAMS : gmap Z member) : outcome (gmap Z member) :=
  for_range 1 (Ok (ceil (numStories p))) (λ i,
    for_range 1 (bind (div (x_length p) (beamSpacingX p))
                      (λ q, Ok (ceil q + 2)%Z)) (λ j,
      for_range 1 (bind (div (y_length p) (beamSpacingY p))
                        (λ q, Ok (ceil q + 1)%Z)) (λ k,
        passA_body i j k))) BEAMS.

(** Second pass: [mID=(10000*(i+1))+(100*j)+k],
    [nodeB=nodeA+(y_length/beamSpacingY+1)]. *)
Definition passB_mID (i j k : Z) : Z := (10000 * (i + 1) + 100 * j + k)%Z.

Definition passB_row (r : Qc) (i j k : Z) : member :=
  let a := beam_nodeA r i j k in beam a (a + (r + 1)).

Definition passB_body (i j k : Z) (BEAMS : gmap Z member)
  : outcome (gmap Z member) :=
  (let! r := div (y_length p) (beamSpacingY p) in
   λ BEAMS, Done (<[passB_mID i j k := passB_row r i j k]> BEAMS)) BEAMS.

Definition passB (BEAMS : gmap Z member) : outcome (gmap Z member) :=
  for_range 1 (Ok (ceil (numStories p))) (λ i,
    for_range 1 (bind (div (x_length p) (beamSpacingX p))
                      (λ q, Ok (ceil q + 1)%Z)) (λ j,
      for_range 1 (bind (div (y_length p) (beamSpacingY p))
                        (λ q, Ok (ceil q + 2)%Z)) (λ k,
        passB_body i j k))) BEAMS.

(** [BEAMS={}], then the two loop nests one after the other. *)
Definition BEAMS : outcome (gmap Z member) :=
  match passA ∅ with
  | Done m => passB m
  | Raised e m => Raised e m
  end.

End Beams.

(** ** The COLUMNS cell *)

Section Columns.
Variable p : Params.

Local Open Scope Qc_scope.

(** The row of a column from [a] to [b]. *)
Definition column (a b : Qc) : member :=
  mkMember a b 1 1 0 "FFFFFF" "FFFFFF" 0 0 0 0 0 0 0 0.

(** [mID=(100000*(i))+(1000*j)+k] *)
Definition column_mID (i j k : Z) : Z := (100000 * i + 1000 * j + k)%Z.

(** [nodeA=(1000*i)+(1+(k-1)*(baySizeY/beamSpacingY))
           +(j-1)*(y_length/beamSpacingY+1)],
    given the values [m] of [baySizeY/beamSpacingY] and [r] of
    [y_length/beamSpacingY]. *)
Definition column_nodeA (m r : Qc) (i j k : Z) : Qc :=
  float (1000 * i) + (1 + float (k - 1) * m) + float (j - 1) * (r + 1).

(** [nodeB=nodeA+1000] *)
Definition column_row (m r : Qc) (i j k : Z) : member :=
  let a := column_nodeA m r i j k in column a (a + float 1000).

Definition COLUMNS_body (i j k : Z) (COLUMNS : gmap Z member)
  : outcome (gmap Z member) :=
  (let! m := div (baySizeY p) (beamSpacingY p) in
   let! r := div (y_length p) (beamSpacingY p) in
   λ COLUMNS, Done (<[column_mID i j k := column_row m r i j k]> COLUMNS))
    COLUMNS.

Definition COLUMNS_from (COLUMNS : gmap Z member)
  : outcome (gmap Z member) :=
  for_range 1 (Ok (ceil (numStories p))) (λ i,
    for_range 1 (bind (div (x_length p) (baySizeX p))
                      (λ q, Ok (ceil q + 2)%Z)) (λ j,
      for_range 1 (bind (div (y_length p) (baySizeY p))
                        (λ q, Ok (ceil q + 2)%Z)) (λ k,
        COLUMNS_body i j k))) COLUMNS.

Definition COLUMNS : outcome (gmap Z member) := COLUMNS_from ∅.

End Columns.

(** ** Loops as lists of writes *)

(** The values [h i j k] in the order in which three nested [for] loops over
    [ri], [rj] and [rk] visit them. *)
Definition nest3 {A} (h : Z → Z → Z → A) (ri rj rk : list Z) : list A :=
  i ← ri; j ← rj; k ← rk; [h i j k].

(** Writing a list of (key, value) pairs into a dictionary, first to last. *)
Definition assign_all `{Countable K} {V} (m : gmap K V) (w : list (K * V))
  : gmap K V :=
  foldl (λ m kv, <[kv.1 := kv.2]> m) m w.

(** ** The generators as lists of writes

    When no division raises, each cell writes one entry per iteration of its
    innermost loop body.  The lists below are those entries in loop order;
    lemmas [NODES_run], [BEAMS_run] and [COLUMNS_run] relate them to the
    cells. *)

Section Views.
Variable p : Params.

Local Open Scope Qc_scope.

(** All parameters strictly positive, at least one level. *)
Definition valid : Prop :=
  0 < storyHeight p ∧ 1 ≤ numStories p ∧ 0 < x_length p ∧ 0 < y_length p
  ∧ 0 < baySizeX p ∧ 0 < baySizeY p
  ∧ 0 < beamSpacingX p ∧ 0 < beamSpacingY p.

#[global] Instance valid_dec : Decision valid.
Proof. unfold valid. apply _. Defined.

(** Number of levels and of grid lines in each direction. *)
Definition levels : Z := ceil (numStories p).
Definition nx : Z := (ceil (x_length p / beamSpacingX p) + 1)%Z.
Definition ny : Z := (ceil (y_length p / beamSpacingY p) + 1)%Z.

(** Number of column lines in each direction. *)
Definition cols_x : Z := (ceil (x_length p / baySizeX p) + 1)%Z.
Definition cols_y : Z := (ceil (y_length p / baySizeY p) + 1)%Z.

(** The raw ratios of the identifier formulas. *)
Definition ratio_y : Qc := y_length p / beamSpacingY p.
Definition bay_ratio_y : Qc := baySizeY p / beamSpacingY p.

Definition node_writes : list (Qc * list Qc) :=
  nest3 (λ i j k, (node_id ratio_y i j k, node_xyz p i j k))
    (range 1 (ceil (numStories p + 1)))
    (range 1 (ceil (x_length p / beamSpacingX p) + 2))
    (range 1 (ceil (y_length p / beamSpacingY p) + 2)).

Definition passA_writes : list (Z * member) :=
  nest3 (λ i j k, (passA_mID i j k, passA_row ratio_y i j k))
    (range 1 (ceil (numStories p)))
    (range 1 (ceil (x_length p / beamSpacingX p) + 2))
    (range 1 (ceil (y_length p / beamSpacingY p) + 1)).

Definition passB_writes : list (Z * member) :=
  nest3 (λ i j k, (passB_mID i j k, passB_row ratio_y i j k))
    (range 1 (ceil (numStories p)))
    (range 1 (ceil (x_length p / beamSpacingX p) + 1))
    (range 1 (ceil (y_length p / beamSpacingY p) + 2)).

Definition beam_writes : list (Z * member) := passA_writes ++ passB_writes.

Definition column_writes : list (Z * member) :=
  nest3 (λ i j k, (column_mID i j k, column_row bay_ratio_y ratio_y i j k))
    (range 1 (ceil (numStories p)))
    (range 1 (ceil (x_length p / baySizeX p) + 2))
    (range 1 (ceil (y_length p / baySizeY p) + 2)).

(** The identifiers each pass writes, in loop order. *)
Definition passA_ids : list Z := passA_writes.*1.
Definition passB_ids : list Z := passB_writes.*1.
Definition beam_ids : list Z := beam_writes.*1.
Definition column_ids : list Z := column_writes.*1.

(** At most 999 nodes on a level. *)
Definition node_capacity : Prop := (nx * ny ≤ 999)%Z.

#[global] Instance node_capacity_dec : Decision node_capacity.
Proof. unfold node_capacity. apply _. Defined.

(** The column lines are grid lines: the bay size along y is [m] beam
    spacings, the last column line along y is one of the [ny] y-lines, and
    there are no more column lines along x than x-lines. *)
Definition columns_on_grid (m : Z) : Prop :=
  baySizeY p = float m * beamSpacingY p
  ∧ (1 + (cols_y - 1) * m ≤ ny)%Z
  ∧ (cols_x ≤ nx)%Z.

#[global] Instance columns_on_grid_dec m : Decision (columns_on_grid m).
Proof. unfold columns_on_grid. apply _. Defined.

End Views.

(** ** Further sample buildings *)

(** Three levels of 31 by 33 grid lines: 1023 nodes on a level. *)
Definition crowded : Params :=
  mkParams (float 18) (float 3) (float 30) (float 32)
           (float 30) (float 32) (float 1) (float 1).

(** The example building drawn downwards: a negative story height. *)
Definition negative_height : Params :=
  mkParams (float (-18)) (float 4) (float 120) (float 120)
           (float 30) (float 30) (float 30) (float 10).

(** Ten bays of 30 along x: eleven x-lines. *)
Definition wide : Params :=
  mkParams (float 18) (float 4) (float 300) (float 120)
           (float 30) (float 30) (float 30) (float 10).

(** A footprint of 100 along y, not a multiple of the bay size 30. *)
Definition overhang : Params :=
  mkParams (float 18) (float 4) (float 120) (float 100)
           (float 30) (float 30) (float 30) (float 10).

(** A footprint of 25 along y with beams every 10: the ratio is 2.5. *)
Definition ragged : Params :=
  mkParams (float 18) (float 4) (float 120) (float 25)
           (float 30) (float 30) (float 30) (float 10).

(** Beams every 10 along x as well, three to the bay. *)
Definition subdivided_x : Params :=
  mkParams (float 18) (float 4) (float 120) (float 120)
           (float 30) (float 30) (float 10) (float 10).

(** A bay size of 30 along y with beams every 20. *)
Definition uneven_bay : Params :=
  mkParams (float 18) (float 4) (float 120) (float 120)
           (float 30) (float 30) (float 30) (float 20).

(** ** The input cell: the building height

    [bldgHeight=storyHeight*(numStories-1)] *)
Definition bldgHeight (p : Params) : Qc :=
  (storyHeight p * (numStories p - 1))%Qc.

(** ** Auxiliary notions for the further properties *)

(** A statement that either does nothing or raises [e] at once. *)
Definition stuck {S} (e : exn) (f : S → outcome S) : Prop :=
  ∀ s, f s = Done s ∨ f s = Raised e s.

Section Overwriting.
Variable p : Params.

(** The writes of the node cell up to and including level [L]. *)
Definition node_writes_upto (L : Z) : list (Qc * list Qc) :=
  nest3 (λ i j k, (node_id (ratio_y p) i j k, node_xyz p i j k))
    (range 1 (L + 1))
    (range 1 (ceil (x_length p / beamSpacingX p) + 2))
    (range 1 (ceil (y_length p / beamSpacingY p) + 2)).

(** The writes of level [L] alone. *)
Definition node_writes_at (L : Z) : list (Qc * list Qc) :=
  nest3 (λ i j k, (node_id (ratio_y p) i j k, node_xyz p i j k))
    [L]
    (range 1 (ceil (x_length p / beamSpacingX p) + 2))
    (range 1 (ceil (y_length p / beamSpacingY p) + 2)).

(** What the dictionary holds under [id] after the levels [1..L]: the
    coordinates of the grid point of the highest level with that
    identifier. *)
Definition keeps_highest (L : Z) (id : Qc) (c : list Qc) : Prop :=
  ∃ i j k, (1 ≤ i ≤ L)%Z ∧ (1 ≤ j ≤ nx p)%Z ∧ (1 ≤ k ≤ ny p)%Z
    ∧ id = node_id (ratio_y p) i j k ∧ c = node_xyz p i j k
    ∧ ∀ i' j' k', (1 ≤ i' ≤ L)%Z → (1 ≤ j' ≤ nx p)%Z → (1 ≤ k' ≤ ny p)%Z →
        node_id (ratio_y p) i' j' k' = id →
        (i' ≤ i)%Z ∧ (i' = i → j' = j ∧ k' = k).

End Overwriting.

(** ** Loops and dictionaries *)

Section LoopLemmas.
Context {S A : Type}.
Implicit Types (s : S) (l : list Z).

Lemma Done_inj s1 s2 : Done s1 = Done s2 → s1 = s2.
Proof. by intros [= ->]. Qed.

Lemma for_each_writes (g : S → A → S) (w : Z → list A)
    (body : Z → S → outcome S) l s :
  (∀ x s, x ∈ l → body x s = Done (foldl g s (w x))) →
  for_each l body s = Done (foldl g s (l ≫= w)).
Proof.
  revert s. induction l as [|x l IH]; intros s Hbody; [done|].
  cbn [for_each]. rewrite Hbody by left.
  rewrite IH by (intros; apply Hbody; by right).
  by rewrite bind_cons, foldl_app.
Qed.

Lemma for_each_nest3 (g : S → A → S) (h : Z → Z → Z → A)
    (body : Z → Z → Z → S → outcome S) (ri rj rk : list Z) s :
  (∀ i j k s, i ∈ ri → j ∈ rj → k ∈ rk → body i j k s = Done (g s (h i j k))) →
  for_each ri (λ i, for_each rj (λ j, for_each rk (body i j))) s
  = Done (foldl g s (nest3 h ri rj rk)).
Proof.
  intros Hbody. unfold nest3.
  apply for_each_writes; intros i s1 Hi.
  apply for_each_writes; intros j s2 Hj.
  apply for_each_writes; intros k s3 Hk.
  by rewrite Hbody.
Qed.

End LoopLemmas.

Section Nest3Lemmas.
Context {A : Type} (h : Z → Z → Z → A).
Implicit Types (ri rj rk : list Z).

Lemma elem_of_nest3 ri rj rk x :
  x ∈ nest3 h ri rj rk ↔ ∃ i j k, x = h i j k ∧ i ∈ ri ∧ j ∈ rj ∧ k ∈ rk.
Proof.
  unfold nest3. split.
  - intros (i & (j & (k & Hx%list_elem_of_singleton & Hk)%list_elem_of_bind
                   & Hj)%list_elem_of_bind & Hi)%list_elem_of_bind.
    by exists i, j, k.
  - intros (i & j & k & -> & Hi & Hj & Hk).
    apply list_elem_of_bind; exists i; split; [|done].
    apply list_elem_of_bind; exists j; split; [|done].
    apply list_elem_of_bind; exists k; split; [|done].
    by apply list_elem_of_singleton.
Qed.

Lemma fmap_nest3 {B} (f : A → B) ri rj rk :
  f <$> nest3 h ri rj rk = nest3 (λ i j k, f (h i j k)) ri rj rk.
Proof.
  unfold nest3. induction ri as [|i ri IHi]; [done|].
  rewrite !bind_cons, fmap_app, IHi. f_equal. clear IHi.
  induction rj as [|j rj IHj]; [done|].
  rewrite !bind_cons, fmap_app, IHj. f_equal. clear IHj.
  induction rk as [|k rk IHk]; [done|].
  rewrite !bind_cons, fmap_app, IHk. done.
Qed.

Lemma to_nat_mul3 (a b c : Z) :
  (0 ≤ a)%Z → (0 ≤ b)%Z → (0 ≤ c)%Z →
  (Z.to_nat a * Z.to_nat b * Z.to_nat c)%nat = Z.to_nat (a * b * c).
Proof.
  intros. rewrite !Z2Nat.inj_mul; (done || by apply Z.mul_nonneg_nonneg).
Qed.

Lemma length_nest3 ri rj rk :
  length (nest3 h ri rj rk) = (length ri * length rj * length rk)%nat.
Proof.
  unfold nest3.
  assert (Hk : ∀ i j, length (k ← rk; [h i j k]) = length rk).
  { intros i j. induction rk as [|k rk' IH]; [done|].
    rewrite bind_cons, length_app, IH. done. }
  assert (Hj : ∀ i, length (j ← rj; k ← rk; [h i j k])
                    = (length rj * length rk)%nat).
  { intros i. induction rj as [|j rj' IH]; [done|].
    rewrite bind_cons, length_app, IH, Hk. done. }
  induction ri as [|i ri' IH]; [done|].
  rewrite bind_cons, length_app, IH, Hj. cbn [length]. lia.
Qed.

Lemma NoDup_nest3 ri rj rk :
  NoDup ri → NoDup rj → NoDup rk →
  (∀ i j k i' j' k',
     i ∈ ri → j ∈ rj → k ∈ rk → i' ∈ ri → j' ∈ rj → k' ∈ rk →
     h i j k = h i' j' k' → i = i' ∧ j = j' ∧ k = k') →
  NoDup (nest3 h ri rj rk).
Proof.
  intros Hi Hj Hk Hinj. unfold nest3.
  apply NoDup_bind; [| |done].
  - intros i i' y ? ?
      (j & (k & ->%list_elem_of_singleton & ?)%list_elem_of_bind & ?)%list_elem_of_bind
      (j' & (k' & Heq%list_elem_of_singleton & ?)%list_elem_of_bind & ?)%list_elem_of_bind.
    by apply Hinj in Heq as (? & ? & ?).
  - intros i ?. apply NoDup_bind; [| |done].
    + intros j j' y ? ?
        (k & ->%list_elem_of_singleton & ?)%list_elem_of_bind
        (k' & Heq%list_elem_of_singleton & ?)%list_elem_of_bind.
      by apply Hinj in Heq as (? & ? & ?).
    + intros j ?. apply NoDup_bind; [| |done].
      * intros k k' y ? ? ->%list_elem_of_singleton Heq%list_elem_of_singleton.
        by apply Hinj in Heq as (? & ? & ?).
      * intros. apply NoDup_singleton.
Qed.

End Nest3Lemmas.

Section AssignLemmas.
Context `{Countable K} {V : Type}.
Implicit Types (m : gmap K V) (w : list (K * V)).

Lemma assign_all_cons m k v w :
  assign_all m ((k, v) :: w) = assign_all (<[k:=v]> m) w.
Proof. done. Qed.

Lemma assign_all_app m w1 w2 :
  assign_all m (w1 ++ w2) = assign_all (assign_all m w1) w2.
Proof. apply foldl_app. Qed.

(** Every entry of the final dictionary was there at the start or was
    written by the loop. *)
Lemma assign_all_lookup_Some m w k v :
  assign_all m w !! k = Some v → (k, v) ∈ w ∨ m !! k = Some v.
Proof.
  revert m. induction w as [|[k' v'] w IH]; intros m; [by right|].
  rewrite assign_all_cons. intros [Hin|Hm]%IH; [left; by right|].
  destruct (decide (k' = k)) as [->|Hne].
  - rewrite lookup_insert_eq in Hm. injection Hm as ->. left; left.
  - rewrite lookup_insert_ne in Hm by done. by right.
Qed.

(** A key that was written is present. *)
Lemma assign_all_is_Some m w k :
  k ∈ w.*1 ∨ is_Some (m !! k) → is_Some (assign_all m w !! k).
Proof.
  revert m. induction w as [|[k' v'] w IH]; intros m.
  - intros [Hin|?]; [by apply not_elem_of_nil in Hin|done].
  - rewrite assign_all_cons, fmap_cons. intros [Hin|Hm]; apply IH.
    + apply elem_of_cons in Hin as [->|?]; [right|by left].
      rewrite lookup_insert_eq. by eexists.
    + right. destruct (decide (k' = k)) as [->|Hne].
      * rewrite lookup_insert_eq. by eexists.
      * by rewrite lookup_insert_ne.
Qed.

Lemma assign_all_lookup_None m w k :
  k ∉ w.*1 → assign_all m w !! k = m !! k.
Proof.
  revert m. induction w as [|[k' v'] w IH]; intros m Hk; [done|].
  rewrite fmap_cons, not_elem_of_cons in Hk. destruct Hk as [Hne Hk].
  rewrite assign_all_cons, IH by done. by rewrite lookup_insert_ne.
Qed.

(** A key written once holds the value written. *)
Lemma assign_all_lookup_NoDup m w k v :
  NoDup w.*1 → (k, v) ∈ w → assign_all m w !! k = Some v.
Proof.
  revert m. induction w as [|[k' v'] w IH]; intros m Hnd Hin.
  - by apply not_elem_of_nil in Hin.
  - rewrite fmap_cons in Hnd. apply NoDup_cons in Hnd as [Hk' Hnd].
    rewrite assign_all_cons.
    apply elem_of_cons in Hin as [[= <- <-]|Hin]; [|by apply IH].
    rewrite assign_all_lookup_None by done. apply lookup_insert_eq.
Qed.

(** Without repeated keys no write overwrites another. *)
Lemma assign_all_size w :
  NoDup w.*1 → size (assign_all (∅ : gmap K V) w) = length w.
Proof.
  induction w as [|[k v] w IH] using rev_ind; intros Hnd; [done|].
  rewrite fmap_app in Hnd. apply NoDup_app in Hnd as (Hnd & Hk & _).
  rewrite assign_all_app, length_app, assign_all_cons. cbn.
  rewrite map_size_insert_None.
  - rewrite IH by done. lia.
  - rewrite assign_all_lookup_None; [done|].
    intros ?. eapply Hk; [done|]. left.
Qed.

End AssignLemmas.

(** ** Arithmetic on canonical rationals, through [Q] *)

Section QcArith.
Implicit Types (x y : Qc) (a b c : Z).

Lemma Qc_eq_Qeq x y : x = y ↔ (this x == this y)%Q.
Proof. split; [by intros ->|apply Qc_is_canon]. Qed.

Lemma this_plus x y : (this (x + y)%Qc == this x + this y)%Q.
Proof. apply Qred_correct. Qed.

Lemma this_mult x y : (this (x * y)%Qc == this x * this y)%Q.
Proof. apply Qred_correct. Qed.

Lemma this_opp x : (this (- x)%Qc == - this x)%Q.
Proof. apply Qred_correct. Qed.

Lemma this_inv x : (this (/ x)%Qc == / this x)%Q.
Proof. apply Qred_correct. Qed.

Lemma this_float a : this (float a) = inject_Z a.
Proof. done. Qed.

Lemma this_one : this 1%Qc = 1%Q.
Proof. done. Qed.

Lemma this_zero : this 0%Qc = 0%Q.
Proof. done. Qed.

End QcArith.

(** Move a goal or hypothesis on [Qc] to [Q], where [lra] and [nra] work. *)
Ltac Q_consts :=
  repeat match goal with
         | |- context [inject_Z (Zpos ?n)] =>
             change (inject_Z (Zpos n)) with (Zpos n # 1)%Q in *
         | H : context [inject_Z (Zpos ?n)] |- _ =>
             change (inject_Z (Zpos n)) with (Zpos n # 1)%Q in *
         | |- context [inject_Z Z0] => change (inject_Z Z0) with 0%Q in *
         | H : context [inject_Z Z0] |- _ => change (inject_Z Z0) with 0%Q in *
         end.

Ltac to_Q :=
  unfold Qclt, Qcle, Qcdiv, Qcminus in *;
  repeat match goal with
         | H : @eq Qc _ _ |- _ => apply Qc_eq_Qeq in H
         | |- @eq Qc _ _ => apply Qc_eq_Qeq
         end;
  repeat (rewrite ?this_plus, ?this_mult, ?this_opp, ?this_inv, ?this_float,
            ?this_one, ?this_zero, ?inject_Z_plus, ?inject_Z_mult, ?inject_Z_opp in * );
  Q_consts.

(** Carry an integer inequality over to [Q]. *)
Ltac inj_Z H :=
  first [ rewrite Zle_Qle in H | rewrite Zlt_Qlt in H ];
  rewrite ?inject_Z_plus, ?inject_Z_mult, ?inject_Z_opp in H;
  Q_consts.

(** Equations between sums and products of [float]s. *)
Ltac float_ring :=
  unfold float;
  repeat (rewrite Z2Qc_inj_add || rewrite Z2Qc_inj_sub || rewrite Z2Qc_inj_mul);
  rewrite ?Z2Qc_inj_1;
  ring.

Section GridArith.
Local Open Scope Qc_scope.
Implicit Types (R o : Qc) (c n i j k : Z).

(** Within one level: distinct grid lines give distinct offsets, because a
    step in [j] moves the identifier by [R], more than [k] can make up. *)
Lemma grid_offset_inj R c j j' k k' :
  float c < R → (1 ≤ k ≤ c + 1)%Z → (1 ≤ k' ≤ c + 1)%Z →
  float (j - 1) * R + float k = float (j' - 1) * R + float k' →
  j = j' ∧ k = k'.
Proof.
  intros HR [Hk1 Hk2] [Hk1' Hk2'] Heq.
  assert (Hj : j = j').
  { unfold Z.sub in *. to_Q. inj_Z Hk1. inj_Z Hk2. inj_Z Hk1'. inj_Z Hk2'.
    destruct (Z.lt_trichotomy j j') as [Hlt|[?|Hlt]]; [|done|];
      exfalso; apply Zlt_le_succ in Hlt; unfold Z.succ in Hlt; inj_Z Hlt;
      nra. }
  subst j'. split; [done|].
  apply (inj (Qcplus _)) in Heq. by apply Z2Qc_inj in Heq.
Qed.

(** The offsets of an [n] by [c + 1] grid lie between 1 and [n * (c + 1)]. *)
Lemma grid_offset_range R c n j k :
  float c < R → R ≤ float (c + 1) →
  (1 ≤ j ≤ n)%Z → (1 ≤ k ≤ c + 1)%Z →
  float 1 ≤ float (j - 1) * R + float k
  ∧ float (j - 1) * R + float k ≤ float (n * (c + 1)).
Proof.
  intros HR HR' [Hj1 Hj2] [Hk1 Hk2].
  unfold Z.sub in *. to_Q. inj_Z Hj1. inj_Z Hj2. inj_Z Hk1. inj_Z Hk2.
  split; nra.
Qed.

(** Across levels: offsets below 1000 keep the thousands apart. *)
Lemma level_offset_inj i i' o o' :
  float 1 ≤ o → o ≤ float 999 → float 1 ≤ o' → o' ≤ float 999 →
  float (1000 * i) + o = float (1000 * i') + o' → i = i'.
Proof.
  intros Ho1 Ho2 Ho1' Ho2' Heq. to_Q.
  destruct (Z.lt_trichotomy i i') as [Hlt|[?|Hlt]]; [|done|];
    exfalso; apply Zlt_le_succ in Hlt; unfold Z.succ in Hlt; inj_Z Hlt; lra.
Qed.

Lemma Qfloor_unique (q : Q) (z : Z) :
  (inject_Z z <= q)%Q → (q < inject_Z (z + 1))%Q → Qfloor q = z.
Proof.
  intros Hlo Hhi.
  pose proof (Qfloor_le q) as H1. pose proof (Qlt_floor q) as H2.
  assert (Qfloor q < z + 1)%Z by (rewrite Zlt_Qlt; lra).
  assert (z < Qfloor q + 1)%Z by (rewrite Zlt_Qlt; lra).
  lia.
Qed.

Lemma Qceiling_unique (q : Q) (z : Z) :
  (inject_Z (z - 1) < q)%Q → (q <= inject_Z z)%Q → Qceiling q = z.
Proof.
  intros Hlo Hhi.
  pose proof (Qle_ceiling q) as H1. pose proof (Qceiling_lt q) as H2.
  assert (Qceiling q - 1 < z)%Z by (rewrite Zlt_Qlt; lra).
  assert (z - 1 < Qceiling q)%Z by (rewrite Zlt_Qlt; lra).
  lia.
Qed.

(** [floor(id/1000)] gives back the level. *)
Lemma level_recover i o :
  float 1 ≤ o → o ≤ float 999 →
  Qfloor ((float (1000 * i) + o) / float 1000)%Qc = i.
Proof.
  intros Ho1 Ho2. apply Qfloor_unique.
  - to_Q. apply Qle_shift_div_l; [done|]. lra.
  - to_Q. apply Qlt_shift_div_r; [done|]. lra.
Qed.

Lemma ceil_lt (r : Qc) : float (ceil r) < r + 1.
Proof.
  pose proof (Qceiling_lt r) as H. unfold ceil, Z.sub in *. to_Q. lra.
Qed.

Lemma ceil_le (r : Qc) : r + 1 ≤ float (ceil r + 1).
Proof.
  pose proof (Qle_ceiling r) as H. unfold ceil in *. to_Q. lra.
Qed.

Lemma ceil_succ (r : Qc) : ceil (r + 1) = (ceil r + 1)%Z.
Proof.
  pose proof (Qle_ceiling r) as H1. pose proof (Qceiling_lt r) as H2.
  unfold ceil, Z.sub in *. apply Qceiling_unique; unfold Z.sub; to_Q.
  - lra.
  - lra.
Qed.

Lemma ceil_float z : ceil (float z) = z.
Proof. apply Qceiling_Z. Qed.

Lemma ceil_pos (r : Qc) : 0 < r → (1 ≤ ceil r)%Z.
Proof.
  intros Hr. pose proof (Qle_ceiling r) as H. unfold ceil.
  assert (0 < Qceiling r)%Z; [|lia]. rewrite Zlt_Qlt. to_Q. lra.
Qed.

End GridArith.

(** ** The cells run to the lists of writes *)

Section RunLemmas.
Variable p : Params.

Local Open Scope Qc_scope.

Lemma elem_of_range lo hi x : x ∈ range lo hi ↔ (lo ≤ x < hi)%Z.
Proof. unfold range. rewrite elem_of_seqZ. lia. Qed.

Lemma length_range lo hi : length (range lo hi) = Z.to_nat (hi - lo).
Proof. apply length_seqZ. Qed.

Lemma NoDup_range lo hi : NoDup (range lo hi).
Proof. apply NoDup_seqZ. Qed.

Lemma div_Ok a b : b ≠ 0 → div a b = Ok (a / b).
Proof. intros Hb. unfold div. by rewrite decide_False. Qed.

Lemma pos_ne_0 (x : Qc) : 0 < x → x ≠ 0.
Proof. intros Hx ->. by apply Qclt_not_eq in Hx. Qed.

Lemma NODES_from_run m :
  beamSpacingX p ≠ 0 → beamSpacingY p ≠ 0 →
  NODES_from p m = Done (assign_all m (node_writes p)).
Proof.
  intros Hx Hy. unfold NODES_from, for_range, node_writes, assign_all.
  rewrite !div_Ok by done. cbn [bind eval].
  apply for_each_nest3. intros i j k s _ _ _.
  unfold NODES_body. by rewrite div_Ok.
Qed.

Lemma NODES_run :
  beamSpacingX p ≠ 0 → beamSpacingY p ≠ 0 →
  NODES p = Done (assign_all ∅ (node_writes p)).
Proof. apply NODES_from_run. Qed.

Lemma passA_run m :
  beamSpacingX p ≠ 0 → beamSpacingY p ≠ 0 →
  passA p m = Done (assign_all m (passA_writes p)).
Proof.
  intros Hx Hy. unfold passA, for_range, passA_writes, assign_all.
  rewrite !div_Ok by done. cbn [bind eval].
  apply for_each_nest3. intros i j k s _ _ _.
  unfold passA_body. by rewrite div_Ok.
Qed.

Lemma passB_run m :
  beamSpacingX p ≠ 0 → beamSpacingY p ≠ 0 →
  passB p m = Done (assign_all m (passB_writes p)).
Proof.
  intros Hx Hy. unfold passB, for_range, passB_writes, assign_all.
  rewrite !div_Ok by done. cbn [bind eval].
  apply for_each_nest3. intros i j k s _ _ _.
  unfold passB_body. by rewrite div_Ok.
Qed.

Lemma BEAMS_run :
  beamSpacingX p ≠ 0 → beamSpacingY p ≠ 0 →
  BEAMS p = Done (assign_all ∅ (beam_writes p)).
Proof.
  intros Hx Hy. unfold BEAMS, beam_writes.
  by rewrite passA_run, passB_run, assign_all_app.
Qed.

Lemma COLUMNS_run :
  baySizeX p ≠ 0 → baySizeY p ≠ 0 → beamSpacingY p ≠ 0 →
  COLUMNS p = Done (assign_all ∅ (column_writes p)).
Proof.
  intros Hx Hy Hs.
  unfold COLUMNS, COLUMNS_from, for_range, column_writes, assign_all.
  rewrite !div_Ok by done. cbn [bind eval].
  apply for_each_nest3. intros i j k s _ _ _.
  unfold COLUMNS_body. by rewrite !div_Ok.
Qed.

Lemma valid_nonzero :
  valid p →
  baySizeX p ≠ 0 ∧ baySizeY p ≠ 0 ∧ beamSpacingX p ≠ 0 ∧ beamSpacingY p ≠ 0.
Proof. intros (?&?&?&?&?&?&?&?). auto using pos_ne_0. Qed.

End RunLemmas.

(** ** The node grid *)

Section NodeLemmas.
Variable p : Params.

Local Open Scope Qc_scope.

Lemma elem_of_node_writes id c :
  (id, c) ∈ node_writes p ↔
  ∃ i j k, (1 ≤ i ≤ levels p)%Z ∧ (1 ≤ j ≤ nx p)%Z ∧ (1 ≤ k ≤ ny p)%Z
           ∧ id = node_id (ratio_y p) i j k ∧ c = node_xyz p i j k.
Proof.
  unfold node_writes. rewrite elem_of_nest3.
  setoid_rewrite elem_of_range. rewrite ceil_succ. unfold levels, nx, ny.
  split.
  - intros (i & j & k & [= -> ->] & ? & ? & ?). exists i, j, k.
    repeat split; lia.
  - intros (i & j & k & ? & ? & ? & -> & ->). exists i, j, k.
    repeat split; lia.
Qed.

Lemma elem_of_node_keys id :
  id ∈ (node_writes p).*1 ↔
  ∃ i j k, (1 ≤ i ≤ levels p)%Z ∧ (1 ≤ j ≤ nx p)%Z ∧ (1 ≤ k ≤ ny p)%Z
           ∧ id = node_id (ratio_y p) i j k.
Proof.
  rewrite list_elem_of_fmap. split.
  - intros ([id' c] & -> & (i & j & k & ? & ? & ? & -> & _)%elem_of_node_writes).
    by exists i, j, k.
  - intros (i & j & k & ? & ? & ? & ->).
    exists (node_id (ratio_y p) i j k, node_xyz p i j k). split; [done|].
    apply elem_of_node_writes. by exists i, j, k.
Qed.

Lemma node_id_offset r i j k :
  node_id r i j k = float (1000 * i) + (float (j - 1) * (r + 1) + float k).
Proof. unfold node_id. ring. Qed.

(** Within a level two grid points never share an identifier. *)
Lemma node_id_inj_level i j k j' k' :
  (1 ≤ k ≤ ny p)%Z → (1 ≤ k' ≤ ny p)%Z →
  node_id (ratio_y p) i j k = node_id (ratio_y p) i j' k' →
  j = j' ∧ k = k'.
Proof.
  intros Hk Hk'. rewrite !node_id_offset. intros Heq%(inj (Qcplus _)).
  eapply grid_offset_inj; [apply ceil_lt| | |done]; done.
Qed.

Lemma node_offset_range j k :
  node_capacity p → (1 ≤ j ≤ nx p)%Z → (1 ≤ k ≤ ny p)%Z →
  float 1 ≤ float (j - 1) * (ratio_y p + 1) + float k
  ∧ float (j - 1) * (ratio_y p + 1) + float k ≤ float 999.
Proof.
  intros Hcap Hj Hk.
  destruct (grid_offset_range (ratio_y p + 1) (ceil (ratio_y p)) (nx p) j k)
    as [Hlo Hhi]; [apply ceil_lt|apply ceil_le|done|done|].
  split; [done|]. eapply Qcle_trans; [done|].
  unfold float. apply (proj1 (Z2Qc_inj_le _ _)). exact Hcap.
Qed.

(** With at most 999 nodes on a level no two grid points of the building
    share an identifier. *)
Lemma node_id_inj i j k i' j' k' :
  node_capacity p →
  (1 ≤ j ≤ nx p)%Z → (1 ≤ k ≤ ny p)%Z →
  (1 ≤ j' ≤ nx p)%Z → (1 ≤ k' ≤ ny p)%Z →
  node_id (ratio_y p) i j k = node_id (ratio_y p) i' j' k' →
  i = i' ∧ j = j' ∧ k = k'.
Proof.
  intros Hcap Hj Hk Hj' Hk' Heq.
  destruct (node_offset_range j k) as [Hlo Hhi]; [done..|].
  destruct (node_offset_range j' k') as [Hlo' Hhi']; [done..|].
  assert (i = i') as <-.
  { rewrite !node_id_offset in Heq.
    exact (level_offset_inj _ _ _ _ Hlo Hhi Hlo' Hhi' Heq). }
  split; [done|]. by eapply node_id_inj_level.
Qed.

Lemma NoDup_node_keys : node_capacity p → NoDup (node_writes p).*1.
Proof.
  intros Hcap. unfold node_writes. rewrite fmap_nest3. cbn [fst].
  apply NoDup_nest3; try apply NoDup_range.
  intros i j k i' j' k' _ Hj%elem_of_range Hk%elem_of_range
    _ Hj'%elem_of_range Hk'%elem_of_range.
  apply node_id_inj; unfold nx, ny; (done || lia).
Qed.

Lemma length_node_writes :
  (0 ≤ levels p)%Z → (0 ≤ nx p)%Z → (0 ≤ ny p)%Z →
  length (node_writes p) = Z.to_nat (levels p * nx p * ny p).
Proof.
  intros. unfold node_writes. rewrite length_nest3, !length_range, ceil_succ.
  unfold levels, nx, ny in *. rewrite to_nat_mul3 by lia. f_equal. ring.
Qed.

Lemma valid_grid :
  valid p → (1 ≤ levels p)%Z ∧ (2 ≤ nx p)%Z ∧ (2 ≤ ny p)%Z.
Proof.
  intros (?&HS&Hx&Hy&?&?&Hsx&Hsy). unfold levels, nx, ny. repeat split.
  - apply ceil_pos. eapply Qclt_le_trans; [|done]. done.
  - assert (1 ≤ ceil (x_length p / beamSpacingX p))%Z; [|lia].
    apply ceil_pos. apply Qcmult_pos_pos; [done|]. by apply Qcinv_pos.
  - assert (1 ≤ ceil (y_length p / beamSpacingY p))%Z; [|lia].
    apply ceil_pos. apply Qcmult_pos_pos; [done|]. by apply Qcinv_pos.
Qed.

End NodeLemmas.


(** ** Loops that can only stop on an exception *)

Section RaiseLemmas.
Context {S : Type}.

Lemma for_each_stuck (e : exn) (body : Z → S → outcome S) l s :
  (∀ x s, body x s = Done s ∨ body x s = Raised e s) →
  for_each l body s = Done s ∨ for_each l body s = Raised e s.
Proof.
  intros Hbody. induction l as [|x l IH]; cbn; [by left|].
  destruct (Hbody x s) as [-> | ->]; [exact IH|by right].
Qed.

End RaiseLemmas.

(** Node generation stops only on a zero beam spacing, and then before the
    first write. *)
Lemma NODES_raised (p : Params) e m :
  NODES p = Raised e m →
  m = ∅ ∧ (beamSpacingX p = 0 ∨ beamSpacingY p = 0)%Qc.
Proof.
  intros Hrun.
  destruct (decide (beamSpacingX p = 0%Qc)) as [Hx|Hx].
  { split; [|by left]. revert Hrun.
    unfold NODES, NODES_from, for_range. rewrite Hx. cbn [eval].
    match goal with
    | |- for_each ?l ?b ?s = _ → _ =>
        destruct (for_each_stuck ZeroDivisionError b l s) as [-> | ->];
          [intros; by right| |]
    end; congruence. }
  destruct (decide (beamSpacingY p = 0%Qc)) as [Hy|Hy].
  { split; [|by right]. revert Hrun.
    unfold NODES, NODES_from, for_range. rewrite Hy, div_Ok by done.
    cbn [eval bind].
    match goal with
    | |- for_each ?l ?b ?s = _ → _ =>
        destruct (for_each_stuck ZeroDivisionError b l s) as [-> | ->];
          [|congruence..]
    end.
    intros i s. apply for_each_stuck. intros; by right. }
  by rewrite NODES_run in Hrun.
Qed.

(** With at least one level to visit, a zero beam spacing along x raises
    on entering the first loop over the x-lines. *)
Lemma NODES_zero_spacing (p : Params) :
  (0 < numStories p)%Qc → beamSpacingX p = 0%Qc →
  NODES p = Raised ZeroDivisionError ∅.
Proof.
  intros HS Hx. unfold NODES, NODES_from, for_range. cbn [eval].
  rewrite ceil_succ. unfold range.
  rewrite seqZ_cons by (pose proof (ceil_pos _ HS); lia).
  cbn [for_each]. by rewrite Hx.
Qed.

(** ** Beams and columns against the node grid *)

Section MemberLemmas.
Variable p : Params.

Local Open Scope Qc_scope.

Lemma elem_of_passA_writes id e :
  (id, e) ∈ passA_writes p ↔
  ∃ i j k, (1 ≤ i ≤ levels p - 1)%Z ∧ (1 ≤ j ≤ nx p)%Z
           ∧ (1 ≤ k ≤ ny p - 1)%Z
           ∧ id = passA_mID i j k ∧ e = passA_row (ratio_y p) i j k.
Proof.
  unfold passA_writes. rewrite elem_of_nest3.
  setoid_rewrite elem_of_range. unfold levels, nx, ny.
  split.
  - intros (i & j & k & [= -> ->] & ? & ? & ?). exists i, j, k.
    repeat split; lia.
  - intros (i & j & k & ? & ? & ? & -> & ->). exists i, j, k.
    repeat split; lia.
Qed.

Lemma elem_of_passB_writes id e :
  (id, e) ∈ passB_writes p ↔
  ∃ i j k, (1 ≤ i ≤ levels p - 1)%Z ∧ (1 ≤ j ≤ nx p - 1)%Z
           ∧ (1 ≤ k ≤ ny p)%Z
           ∧ id = passB_mID i j k ∧ e = passB_row (ratio_y p) i j k.
Proof.
  unfold passB_writes. rewrite elem_of_nest3.
  setoid_rewrite elem_of_range. unfold levels, nx, ny.
  split.
  - intros (i & j & k & [= -> ->] & ? & ? & ?). exists i, j, k.
    repeat split; lia.
  - intros (i & j & k & ? & ? & ? & -> & ->). exists i, j, k.
    repeat split; lia.
Qed.

Lemma elem_of_column_writes id e :
  (id, e) ∈ column_writes p ↔
  ∃ i j k, (1 ≤ i ≤ levels p - 1)%Z ∧ (1 ≤ j ≤ cols_x p)%Z
           ∧ (1 ≤ k ≤ cols_y p)%Z
           ∧ id = column_mID i j k
           ∧ e = column_row (bay_ratio_y p) (ratio_y p) i j k.
Proof.
  unfold column_writes. rewrite elem_of_nest3.
  setoid_rewrite elem_of_range. unfold levels, cols_x, cols_y.
  split.
  - intros (i & j & k & [= -> ->] & ? & ? & ?). exists i, j, k.
    repeat split; lia.
  - intros (i & j & k & ? & ? & ? & -> & ->). exists i, j, k.
    repeat split; lia.
Qed.

(** The endpoint formulas of the beam passes are the node formula one
    level up, and one line further for [nodeB]. *)
Lemma beam_nodeA_node_id r i j k :
  beam_nodeA r i j k = node_id r (i + 1) j k.
Proof. unfold beam_nodeA, node_id. float_ring. Qed.

Lemma passA_nodeB_node_id r i j k :
  beam_nodeA r i j k + 1 = node_id r (i + 1) j (k + 1).
Proof. unfold beam_nodeA, node_id. float_ring. Qed.

Lemma passB_nodeB_node_id r i j k :
  beam_nodeA r i j k + (r + 1) = node_id r (i + 1) (j + 1) k.
Proof. unfold beam_nodeA, node_id. float_ring. Qed.

(** With a whole number [m] of beam spacings to the bay, the column
    endpoints are the nodes on y-line [1 + (k-1)*m] of levels [i] and
    [i + 1]. *)
Lemma column_nodeA_node_id (m : Z) r i j k :
  column_nodeA (float m) r i j k = node_id r i j (1 + (k - 1) * m).
Proof. unfold column_nodeA, node_id. float_ring. Qed.

Lemma column_nodeB_node_id (m : Z) r i j k :
  column_nodeA (float m) r i j k + float 1000
  = node_id r (i + 1) j (1 + (k - 1) * m).
Proof. unfold column_nodeA, node_id. float_ring. Qed.

Lemma bay_ratio_y_whole (m : Z) :
  beamSpacingY p ≠ 0 → baySizeY p = float m * beamSpacingY p →
  bay_ratio_y p = float m.
Proof. intros Hs Hm. unfold bay_ratio_y. rewrite Hm. by field. Qed.

Lemma whole_ratio_pos (m : Z) :
  0 < baySizeY p → 0 < beamSpacingY p →
  baySizeY p = float m * beamSpacingY p → (1 ≤ m)%Z.
Proof.
  intros Hb Hs Hm. rewrite Hm in Hb.
  destruct (Z.le_gt_cases m 0) as [Hle|?]; [exfalso|lia].
  inj_Z Hle. to_Q. nra.
Qed.

(** Every key of a dictionary of members built from a list of writes was
    written by some iteration. *)
Lemma assign_all_empty_lookup `{Countable K} {V} (w : list (K * V)) k v :
  assign_all ∅ w !! k = Some v → (k, v) ∈ w.
Proof.
  intros [?|Hm]%assign_all_lookup_Some; [done|by rewrite lookup_empty in Hm].
Qed.

(** A key whose writes all carry the same value holds that value. *)
Lemma assign_all_lookup_agree `{Countable K} {V} (w : list (K * V)) k v :
  (k, v) ∈ w → (∀ v', (k, v') ∈ w → v' = v) →
  assign_all ∅ w !! k = Some v.
Proof.
  intros Hin Hagree.
  destruct (assign_all_is_Some ∅ w k) as [v' Hv'].
  { left. apply list_elem_of_fmap. by exists (k, v). }
  rewrite Hv'. f_equal. apply Hagree. by apply assign_all_empty_lookup.
Qed.

End MemberLemmas.

Section EndpointLemmas.
Variable p : Params.

Local Open Scope Qc_scope.

Lemma node_key_present i j k :
  (1 ≤ i ≤ levels p)%Z → (1 ≤ j ≤ nx p)%Z → (1 ≤ k ≤ ny p)%Z →
  is_Some (assign_all ∅ (node_writes p) !! node_id (ratio_y p) i j k).
Proof.
  intros. apply assign_all_is_Some. left.
  apply elem_of_node_keys. by exists i, j, k.
Qed.

Lemma node_stored i j k :
  node_capacity p →
  (1 ≤ i ≤ levels p)%Z → (1 ≤ j ≤ nx p)%Z → (1 ≤ k ≤ ny p)%Z →
  assign_all ∅ (node_writes p) !! node_id (ratio_y p) i j k
  = Some (node_xyz p i j k).
Proof.
  intros. apply assign_all_lookup_NoDup; [by apply NoDup_node_keys|].
  apply elem_of_node_writes. by exists i, j, k.
Qed.

(** What each pass connects, in grid indices. *)
Lemma passA_connects id e :
  (id, e) ∈ passA_writes p →
  ∃ l j k, (2 ≤ l ≤ levels p)%Z ∧ (1 ≤ j ≤ nx p)%Z
           ∧ (1 ≤ k)%Z ∧ (k + 1 ≤ ny p)%Z
           ∧ nodeA e = node_id (ratio_y p) l j k
           ∧ nodeB e = node_id (ratio_y p) l j (k + 1).
Proof.
  intros (i & j & k & ? & ? & ? & _ & ->)%elem_of_passA_writes.
  exists (i + 1)%Z, j, k. cbn [passA_row beam nodeA nodeB].
  rewrite passA_nodeB_node_id, beam_nodeA_node_id.
  repeat split; (done || lia).
Qed.

Lemma passB_connects id e :
  (id, e) ∈ passB_writes p →
  ∃ l j k, (2 ≤ l ≤ levels p)%Z ∧ (1 ≤ j)%Z ∧ (j + 1 ≤ nx p)%Z
           ∧ (1 ≤ k ≤ ny p)%Z
           ∧ nodeA e = node_id (ratio_y p) l j k
           ∧ nodeB e = node_id (ratio_y p) l (j + 1) k.
Proof.
  intros (i & j & k & ? & ? & ? & _ & ->)%elem_of_passB_writes.
  exists (i + 1)%Z, j, k. cbn [passB_row beam nodeA nodeB].
  rewrite passB_nodeB_node_id, beam_nodeA_node_id.
  repeat split; (done || lia).
Qed.

Lemma beam_written id e :
  assign_all ∅ (beam_writes p) !! id = Some e →
  (id, e) ∈ passA_writes p ∨ (id, e) ∈ passB_writes p.
Proof.
  intros Hin%assign_all_empty_lookup. by apply elem_of_app in Hin.
Qed.

Lemma column_connects (m : Z) id e :
  valid p → columns_on_grid p m →
  (id, e) ∈ column_writes p →
  ∃ i j k k', (1 ≤ i ≤ levels p - 1)%Z ∧ (1 ≤ j ≤ cols_x p)%Z
              ∧ (1 ≤ k ≤ cols_y p)%Z
              ∧ k' = (1 + (k - 1) * m)%Z
              ∧ (1 ≤ j ≤ nx p)%Z ∧ (1 ≤ k' ≤ ny p)%Z
              ∧ nodeA e = node_id (ratio_y p) i j k'
              ∧ nodeB e = node_id (ratio_y p) (i + 1) j k'.
Proof.
  intros Hv (Hm & Hy & Hx)
    (i & j & k & ? & ? & ? & _ & ->)%elem_of_column_writes.
  destruct (valid_nonzero p Hv) as (_ & _ & _ & Hsy).
  assert (1 ≤ m)%Z.
  { destruct Hv as (_&_&_&_&_&?&_&?). by eapply whole_ratio_pos. }
  exists i, j, k, (1 + (k - 1) * m)%Z.
  rewrite (bay_ratio_y_whole p m Hsy Hm).
  cbn [column_row column nodeA nodeB].
  rewrite column_nodeB_node_id, column_nodeA_node_id.
  repeat split; (done || nia).
Qed.

(** The column lines are grid lines when the beams subdivide the bays
    along y only and the footprint along y is a whole number of bays. *)
Lemma columns_on_grid_whole_bays (m n : Z) :
  valid p →
  beamSpacingX p = baySizeX p →
  baySizeY p = float m * beamSpacingY p →
  y_length p = float n * baySizeY p →
  columns_on_grid p m.
Proof.
  intros Hv Hx Hm Hn. destruct (valid_nonzero p Hv) as (_ & Hby & _ & Hsy).
  split; [done|]. split; [|unfold cols_x, nx; by rewrite Hx].
  unfold cols_y, ny.
  replace (y_length p / baySizeY p) with (float n)
    by (rewrite Hn; by field).
  replace (y_length p / beamSpacingY p) with (float (n * m))
    by (rewrite Hn, Hm; unfold float; rewrite Z2Qc_inj_mul; by field).
  rewrite !ceil_float. lia.
Qed.

End EndpointLemmas.

Section CountLemmas.
Variable p : Params.

Local Open Scope Qc_scope.

Lemma valid_cols : valid p → (2 ≤ cols_x p)%Z ∧ (2 ≤ cols_y p)%Z.
Proof.
  intros (?&?&?&?&?&?&?&?). unfold cols_x, cols_y. split.
  - assert (1 ≤ ceil (x_length p / baySizeX p))%Z; [|lia].
    apply ceil_pos. apply Qcmult_pos_pos; [done|]. by apply Qcinv_pos.
  - assert (1 ≤ ceil (y_length p / baySizeY p))%Z; [|lia].
    apply ceil_pos. apply Qcmult_pos_pos; [done|]. by apply Qcinv_pos.
Qed.

Lemma ground_corner_id r : node_id r 1 1 1 = float 1001.
Proof.
  unfold node_id, float. change (1 - 1)%Z with 0%Z.
  rewrite Z2Qc_inj_0, Qcmult_0_l, Qcplus_0_r. compute_done.
Qed.

Lemma first_column_nodeA m r : column_nodeA m r 1 1 1 = node_id r 1 1 1.
Proof. unfold column_nodeA, node_id. float_ring. Qed.

Lemma elem_of_passA_ids id :
  id ∈ passA_ids p →
  ∃ i j k, (1 ≤ i)%Z ∧ (1 ≤ j ≤ nx p)%Z ∧ (1 ≤ k ≤ ny p - 1)%Z
           ∧ id = passA_mID i j k.
Proof.
  intros ([id' e] & -> & Hw)%list_elem_of_fmap.
  apply elem_of_passA_writes in Hw as (i & j & k & ? & ? & ? & -> & _).
  exists i, j, k. repeat split; (done || lia).
Qed.

Lemma elem_of_passB_ids id :
  id ∈ passB_ids p →
  ∃ i j k, (1 ≤ i)%Z ∧ (1 ≤ j ≤ nx p - 1)%Z ∧ (1 ≤ k ≤ ny p)%Z
           ∧ id = passB_mID i j k.
Proof.
  intros ([id' e] & -> & Hw)%list_elem_of_fmap.
  apply elem_of_passB_writes in Hw as (i & j & k & ? & ? & ? & -> & _).
  exists i, j, k. repeat split; (done || lia).
Qed.

(** With at most ten x-lines and a hundred y-lines the digit groups of
    the beam identifiers do not run into each other. *)
Lemma passA_passB_disjoint a b :
  (nx p ≤ 10)%Z → (ny p ≤ 100)%Z →
  a ∈ passA_ids p → b ∈ passB_ids p → a ≠ b.
Proof.
  intros Hx Hy (i & j & k & ? & ? & ? & ->)%elem_of_passA_ids
    (i' & j' & k' & ? & ? & ? & ->)%elem_of_passB_ids.
  unfold passA_mID, passB_mID. lia.
Qed.

Lemma passA_mID_inj i j k i' j' k' :
  (1 ≤ j ≤ 10)%Z → (1 ≤ k ≤ 99)%Z → (1 ≤ j' ≤ 10)%Z → (1 ≤ k' ≤ 99)%Z →
  passA_mID i j k = passA_mID i' j' k' → i = i' ∧ j = j' ∧ k = k'.
Proof.
  unfold passA_mID. intros.
  assert (i = i') as <- by lia. assert (j = j') as <- by lia. lia.
Qed.

Lemma passB_mID_inj i j k i' j' k' :
  (1 ≤ j ≤ 9)%Z → (1 ≤ k ≤ 100)%Z → (1 ≤ j' ≤ 9)%Z → (1 ≤ k' ≤ 100)%Z →
  passB_mID i j k = passB_mID i' j' k' → i = i' ∧ j = j' ∧ k = k'.
Proof.
  unfold passB_mID. intros.
  assert (i = i') as <- by lia. assert (j = j') as <- by lia. lia.
Qed.

Lemma NoDup_passA_ids :
  (nx p ≤ 10)%Z → (ny p ≤ 100)%Z → NoDup (passA_ids p).
Proof.
  intros Hx Hy. unfold passA_ids, passA_writes. rewrite fmap_nest3. cbn [fst].
  apply NoDup_nest3; try apply NoDup_range.
  intros i j k i' j' k' _ Hj%elem_of_range Hk%elem_of_range
    _ Hj'%elem_of_range Hk'%elem_of_range.
  unfold nx, ny in *. apply passA_mID_inj; lia.
Qed.

Lemma NoDup_passB_ids :
  (nx p ≤ 10)%Z → (ny p ≤ 100)%Z → NoDup (passB_ids p).
Proof.
  intros Hx Hy. unfold passB_ids, passB_writes. rewrite fmap_nest3. cbn [fst].
  apply NoDup_nest3; try apply NoDup_range.
  intros i j k i' j' k' _ Hj%elem_of_range Hk%elem_of_range
    _ Hj'%elem_of_range Hk'%elem_of_range.
  unfold nx, ny in *. apply passB_mID_inj; lia.
Qed.

Lemma column_mID_inj i j k i' j' k' :
  (1 ≤ j ≤ 99)%Z → (1 ≤ k ≤ 999)%Z → (1 ≤ j' ≤ 99)%Z → (1 ≤ k' ≤ 999)%Z →
  column_mID i j k = column_mID i' j' k' → i = i' ∧ j = j' ∧ k = k'.
Proof.
  unfold column_mID. intros.
  assert (i = i') as <- by lia. assert (j = j') as <- by lia. lia.
Qed.

Lemma NoDup_column_ids :
  (cols_x p ≤ 99)%Z → (cols_y p ≤ 999)%Z → NoDup (column_ids p).
Proof.
  intros Hx Hy. unfold column_ids, column_writes.
  rewrite fmap_nest3. cbn [fst].
  apply NoDup_nest3; try apply NoDup_range.
  intros i j k i' j' k' _ Hj%elem_of_range Hk%elem_of_range
    _ Hj'%elem_of_range Hk'%elem_of_range.
  unfold cols_x, cols_y in *. apply column_mID_inj; lia.
Qed.

Lemma beam_ids_app : beam_ids p = passA_ids p ++ passB_ids p.
Proof. unfold beam_ids, beam_writes. apply fmap_app. Qed.

Lemma NoDup_beam_ids :
  (nx p ≤ 10)%Z → (ny p ≤ 100)%Z → NoDup (beam_ids p).
Proof.
  intros Hx Hy. rewrite beam_ids_app. apply NoDup_app.
  split; [by apply NoDup_passA_ids|]. split; [|by apply NoDup_passB_ids].
  intros a Ha Hb. by apply (passA_passB_disjoint a a).
Qed.

Lemma length_beam_writes :
  (1 ≤ levels p)%Z → (2 ≤ nx p)%Z → (2 ≤ ny p)%Z →
  length (beam_writes p)
  = Z.to_nat ((levels p - 1)
              * (nx p * (ny p - 1) + (nx p - 1) * ny p)).
Proof.
  intros. unfold beam_writes, passA_writes, passB_writes.
  rewrite length_app, !length_nest3, !length_range.
  unfold levels, nx, ny in *. rewrite !to_nat_mul3 by lia.
  rewrite <- Z2Nat.inj_add by (repeat apply Z.mul_nonneg_nonneg; lia).
  f_equal. ring.
Qed.

Lemma length_column_writes :
  (1 ≤ levels p)%Z → (2 ≤ cols_x p)%Z → (2 ≤ cols_y p)%Z →
  length (column_writes p)
  = Z.to_nat ((levels p - 1) * cols_x p * cols_y p).
Proof.
  intros. unfold column_writes. rewrite !length_nest3, !length_range.
  unfold levels, cols_x, cols_y in *. rewrite to_nat_mul3 by lia.
  f_equal. ring.
Qed.

End CountLemmas.

(** ** Properties of the node generator *)













(** ** Properties of the beam and column generators *)







(** C3 (amended).  For a valid parameter set in which no level holds more
    than 999 nodes, no beam of the table has the identifier of a
    ground-level node (level 1) as an endpoint.  Columns do start at ground
    level: whenever the building has at least two levels, element 101001 of
    the column table starts at the ground-level node 1001. *)
Theorem ground_level_members (p : Params) :
  valid p → node_capacity p →
  ∃ mb mc, BEAMS p = Done mb ∧ COLUMNS p = Done mc
    ∧ (∀ id e, mb !! id = Some e →
         ∀ j k, (1 ≤ j ≤ nx p)%Z → (1 ≤ k ≤ ny p)%Z →
           nodeA e ≠ node_id (y_length p / beamSpacingY p) 1 j k
           ∧ nodeB e ≠ node_id (y_length p / beamSpacingY p) 1 j k)
    ∧ ((2 ≤ levels p)%Z →
       ∃ e, mc !! 101001%Z = Some e
         ∧ nodeA e = node_id (y_length p / beamSpacingY p) 1 1 1
         ∧ nodeA e = float 1001).
Proof.
  intros Hv Hcap. destruct (valid_nonzero p Hv) as (? & ? & ? & ?).
  exists (assign_all ∅ (beam_writes p)), (assign_all ∅ (column_writes p)).
  split; [by apply BEAMS_run|]. split; [by apply COLUMNS_run|]. split.
  - intros id e Hw j k Hj Hk. fold (ratio_y p).
    apply beam_written in Hw as [Hw|Hw].
    + apply passA_connects in Hw as (l & j0 & k0 & ? & ? & ? & ? & -> & ->).
      split; intros Heq; apply node_id_inj in Heq; (done || lia).
    + apply passB_connects in Hw as (l & j0 & k0 & ? & ? & ? & ? & -> & ->).
      split; intros Heq; apply node_id_inj in Heq; (done || lia).
  - intros Hl. destruct (valid_cols p Hv) as [? ?].
    exists (column_row (bay_ratio_y p) (ratio_y p) 1 1 1).
    split; [|split].
    + change 101001%Z with (column_mID 1 1 1).
      apply assign_all_lookup_agree.
      * apply elem_of_column_writes. exists 1%Z, 1%Z, 1%Z.
        repeat split; (done || lia).
      * intros e (i & j & k & ? & ? & ? & Hid & ->)%elem_of_column_writes.
        unfold column_mID in Hid.
        assert (i = 1 ∧ j = 1 ∧ k = 1)%Z as (-> & -> & ->) by lia. done.
    + apply first_column_nodeA.
    + cbn [column_row column nodeA].
      by rewrite first_column_nodeA, ground_corner_id.
Qed.

Lemma ground_level_members_witness :
  ∃ mb mc, BEAMS example = Done mb ∧ COLUMNS example = Done mc
    ∧ (∀ id e, mb !! id = Some e →
         ∀ j k, (1 ≤ j ≤ nx example)%Z → (1 ≤ k ≤ ny example)%Z →
           nodeA e ≠ node_id (y_length example / beamSpacingY example) 1 j k
           ∧ nodeB e ≠ node_id (y_length example / beamSpacingY example) 1 j k)
    ∧ ∃ e, mc !! 101001%Z = Some e ∧ nodeA e = float 1001.
Proof.
  destruct (ground_level_members example)
    as (mb & mc & Hb & Hc & Hbeams & Hcols); [compute_done..|].
  exists mb, mc. do 3 (split; [done|]).
  destruct Hcols as (e & He & _ & HA); [compute_done|].
  by exists e.
Defined.

(** C3, as stated, fails on the example building: column 101001 runs from
    node 1001, the ground-level node stored at [[0, 0, 0]], to node
    2001. *)
Lemma column_from_ground :
  valid example
  ∧ node_id (y_length example / beamSpacingY example) 1 1 1 = float 1001
  ∧ ∃ mn mc, NODES example = Done mn ∧ COLUMNS example = Done mc
      ∧ mc !! 101001%Z = Some (column (float 1001) (float 2001))
      ∧ mn !! float 1001 = Some [float 0; float 0; float 0].
Proof.
  split; [compute_done|]. split; [compute_done|].
  exists (assign_all ∅ (node_writes example)),
         (assign_all ∅ (column_writes example)).
  split; [by apply NODES_run|]. split; [by apply COLUMNS_run|].
  split; compute_done.
Qed.




(** When the beams subdivide the bays along x as well (every 10 in bays of
    30), the column cell still uses its column index as the x-line index:
    column 102001 stands on the second x-line, at [x = 10], between two bay
    corners. *)
Example column_between_bays_x :
  ∃ mn mc, NODES subdivided_x = Done mn ∧ COLUMNS subdivided_x = Done mc
    ∧ mc !! 102001%Z = Some (column (float 1014) (float 2014))
    ∧ mn !! float 1014 = Some [float 10; float 0; float 0].
Proof.
  exists (assign_all ∅ (node_writes subdivided_x)),
         (assign_all ∅ (column_writes subdivided_x)).
  split; [by apply NODES_run|]. split; [by apply COLUMNS_run|].
  split; compute_done.
Qed.

(** C4 (amended).  For a valid parameter set with at most ten x-lines and
    at most a hundred y-lines, no identifier written by the first beam pass
    equals one written by the second, no identifier is written twice, and
    the beam table holds one element per iteration of the two passes. *)
Theorem beam_ids_distinct (p : Params) :
  valid p → (nx p ≤ 10)%Z → (ny p ≤ 100)%Z →
  ∃ m, BEAMS p = Done m
    ∧ (∀ a b, a ∈ passA_ids p → b ∈ passB_ids p → a ≠ b)
    ∧ NoDup (beam_ids p)
    ∧ size m = length (beam_writes p).
Proof.
  intros Hv Hx Hy. destruct (valid_nonzero p Hv) as (_ & _ & ? & ?).
  exists (assign_all ∅ (beam_writes p)). split; [by apply BEAMS_run|].
  split; [intros a b; by apply passA_passB_disjoint|].
  split; [by apply NoDup_beam_ids|].
  apply assign_all_size. by apply NoDup_beam_ids.
Qed.

Lemma beam_ids_distinct_witness :
  ∃ m, BEAMS example = Done m
    ∧ (∀ a b, a ∈ passA_ids example → b ∈ passB_ids example → a ≠ b)
    ∧ NoDup (beam_ids example)
    ∧ size m = length (beam_writes example).
Proof. apply (beam_ids_distinct example); compute_done. Defined.

(** C4, as stated, fails on the wide building (eleven x-lines): the first
    pass writes identifier 21001 for (i, j, k) = (1, 1, 1) and the second
    pass writes it again for (1, 10, 1); the table keeps the beam of the
    second pass, from node 2118 to node 2131. *)
Lemma beam_id_reused :
  valid wide
  ∧ passA_mID 1 1 1 = 21001%Z ∧ passB_mID 1 10 1 = 21001%Z
  ∧ 21001%Z ∈ passA_ids wide ∧ 21001%Z ∈ passB_ids wide
  ∧ ∃ m, BEAMS wide = Done m
      ∧ m !! 21001%Z = Some (beam (float 2118) (float 2131)).
Proof.
  split; [compute_done|]. do 4 (split; [compute_done|]).
  exists (assign_all ∅ (beam_writes wide)).
  split; [by apply BEAMS_run|]. compute_done.
Qed.


(** ** Further properties of the three cells *)

(** *** Where the cells can stop *)

Section Stops.
Context {S : Type}.
Implicit Types (f g : S → outcome S).

Lemma stuck_raise e (r : result Z) (k : Z → S → outcome S) :
  r = Raise e → stuck e (eval r k).
Proof. intros -> s. by right. Qed.

Lemma stuck_for_each e (body : Z → S → outcome S) l :
  (∀ x, stuck e (body x)) → stuck e (for_each l body).
Proof. intros Hbody s. apply for_each_stuck. intros x s'. apply Hbody. Qed.

Lemma stuck_for_range e lo h (body : Z → S → outcome S) :
  (∀ x, stuck e (body x)) → stuck e (for_range lo (Ok h) body).
Proof. intros Hbody. unfold for_range. cbn [eval]. by apply stuck_for_each. Qed.

Lemma stuck_seq e f g s :
  stuck e f → stuck e g →
  match f s with Done m => g m | Raised e' m => Raised e' m end = Done s
  ∨ match f s with Done m => g m | Raised e' m => Raised e' m end
    = Raised e s.
Proof. intros Hf Hg. destruct (Hf s) as [-> | ->]; [apply Hg|by right]. Qed.

End Stops.

Section StopLemmas.
Variable p : Params.

Local Open Scope Qc_scope.

Lemma div_zero a b : b = 0 → div a b = Raise ZeroDivisionError.
Proof. intros ->. done. Qed.

Lemma passA_stuck :
  beamSpacingX p = 0 ∨ beamSpacingY p = 0 →
  stuck ZeroDivisionError (passA p).
Proof.
  intros Hz. unfold passA. apply stuck_for_range; intros i.
  destruct (decide (beamSpacingX p = 0)) as [Hx|Hx].
  { apply stuck_raise. by rewrite div_zero. }
  destruct Hz as [?|Hy]; [done|].
  rewrite (div_Ok _ _ Hx). cbn [bind]. apply stuck_for_range; intros j.
  apply stuck_raise. by rewrite div_zero.
Qed.

Lemma passB_stuck :
  beamSpacingX p = 0 ∨ beamSpacingY p = 0 →
  stuck ZeroDivisionError (passB p).
Proof.
  intros Hz. unfold passB. apply stuck_for_range; intros i.
  destruct (decide (beamSpacingX p = 0)) as [Hx|Hx].
  { apply stuck_raise. by rewrite div_zero. }
  destruct Hz as [?|Hy]; [done|].
  rewrite (div_Ok _ _ Hx). cbn [bind]. apply stuck_for_range; intros j.
  apply stuck_raise. by rewrite div_zero.
Qed.

Lemma BEAMS_raised e m :
  BEAMS p = Raised e m →
  m = ∅ ∧ (beamSpacingX p = 0 ∨ beamSpacingY p = 0).
Proof.
  intros Hrun.
  destruct (decide (beamSpacingX p = 0)) as [Hx|Hx];
    [|destruct (decide (beamSpacingY p = 0)) as [Hy|Hy]].
  - split; [|by left]. unfold BEAMS in Hrun.
    destruct (stuck_seq ZeroDivisionError (passA p) (passB p) ∅)
      as [H|H]; [apply passA_stuck|apply passB_stuck|..]; auto; congruence.
  - split; [|by right]. unfold BEAMS in Hrun.
    destruct (stuck_seq ZeroDivisionError (passA p) (passB p) ∅)
      as [H|H]; [apply passA_stuck|apply passB_stuck|..]; auto; congruence.
  - by rewrite BEAMS_run in Hrun.
Qed.

Lemma COLUMNS_raised e m :
  COLUMNS p = Raised e m →
  m = ∅ ∧ (baySizeX p = 0 ∨ baySizeY p = 0 ∨ beamSpacingY p = 0).
Proof.
  intros Hrun.
  destruct (decide (baySizeX p = 0)) as [Hx|Hx];
    [|destruct (decide (baySizeY p = 0)) as [Hy|Hy];
      [|destruct (decide (beamSpacingY p = 0)) as [Hs|Hs]]].
  4: by rewrite COLUMNS_run in Hrun.
  all: split; [|by auto].
  all: assert (Hst : stuck ZeroDivisionError (COLUMNS_from p));
    [|destruct (Hst ∅); unfold COLUMNS in Hrun; congruence].
  all: unfold COLUMNS_from; apply stuck_for_range; intros i.
  - apply stuck_raise. by rewrite div_zero.
  - rewrite (div_Ok _ _ Hx). cbn [bind]. apply stuck_for_range; intros j.
    apply stuck_raise. by rewrite div_zero.
  - rewrite (div_Ok _ _ Hx), (div_Ok _ _ Hy). cbn [bind].
    apply stuck_for_range; intros j. apply stuck_for_range; intros k.
    intros s. unfold COLUMNS_body. rewrite div_zero by done. by right.
Qed.

Lemma ceil_le_1 (q : Qc) : q ≤ 1 → (ceil q ≤ 1)%Z.
Proof.
  intros Hq. change 1%Z with (Qceiling (inject_Z 1)) at 1.
  rewrite Qceiling_Z. apply (Qceiling_resp_le q 1). exact Hq.
Qed.

Lemma range_nil lo hi : (hi ≤ lo)%Z → range lo hi = [].
Proof. intros. unfold range. apply seqZ_nil. lia. Qed.

End StopLemmas.

Section StopLemmas2.
Variable p : Params.

Local Open Scope Qc_scope.

Lemma ceil_gt_1 (q : Qc) : 1 < q → (2 ≤ ceil q)%Z.
Proof.
  intros Hq. pose proof (Qle_ceiling q) as H. unfold ceil.
  assert (1 < Qceiling q)%Z; [|lia]. rewrite Zlt_Qlt. to_Q. lra.
Qed.

Lemma range_cons lo hi : (lo < hi)%Z → range lo hi = lo :: range (lo + 1) hi.
Proof.
  intros. unfold range. rewrite seqZ_cons by lia.
  f_equal. f_equal; lia.
Qed.

Lemma BEAMS_zero_spacing :
  1 < numStories p → beamSpacingX p = 0 →
  BEAMS p = Raised ZeroDivisionError ∅.
Proof.
  intros HS Hx. unfold BEAMS, passA, for_range. cbn [eval].
  rewrite range_cons by (pose proof (ceil_gt_1 _ HS); lia).
  cbn [for_each]. by rewrite Hx.
Qed.

Lemma COLUMNS_zero_bay :
  1 < numStories p → baySizeX p = 0 →
  COLUMNS p = Raised ZeroDivisionError ∅.
Proof.
  intros HS Hx. unfold COLUMNS, COLUMNS_from, for_range. cbn [eval].
  rewrite range_cons by (pose proof (ceil_gt_1 _ HS); lia).
  cbn [for_each]. by rewrite Hx.
Qed.

Lemma members_single_level :
  numStories p ≤ 1 → BEAMS p = Done ∅ ∧ COLUMNS p = Done ∅.
Proof.
  intros HS%ceil_le_1.
  unfold BEAMS, passA, passB, COLUMNS, COLUMNS_from, for_range.
  cbn [eval]. by rewrite range_nil.
Qed.

Lemma NODES_no_level : numStories p ≤ 0 → NODES p = Done ∅.
Proof.
  intros HS. unfold NODES, NODES_from, for_range. cbn [eval].
  rewrite range_nil; [done|]. apply ceil_le_1.
  apply (Qcplus_le_mono_r _ _ 1) in HS. by rewrite Qcplus_0_l in HS.
Qed.

End StopLemmas2.



(** X3.  A building of a single level has nodes but no members: with a
    story count of at most one the beam and column tables are empty and no
    division is attempted, whatever the other parameters are (zero spacings
    included).  With a story count of at most zero the node mapping is
    empty as well. *)
Theorem degenerate_story_count (p : Params) :
  ((numStories p ≤ 1)%Qc → BEAMS p = Done ∅ ∧ COLUMNS p = Done ∅)
  ∧ ((numStories p ≤ 0)%Qc → NODES p = Done ∅).
Proof. split; [apply members_single_level|apply NODES_no_level]. Qed.

Lemma degenerate_story_count_witness :
  BEAMS (mkParams (float 18) (float 1) (float 120) (float 120)
                  (float 0) (float 0) (float 0) (float 0)) = Done ∅
  ∧ COLUMNS (mkParams (float 18) (float 1) (float 120) (float 120)
                      (float 0) (float 0) (float 0) (float 0)) = Done ∅
  ∧ NODES (mkParams (float 18) (float 0) (float 120) (float 120)
                    (float 30) (float 30) (float 0) (float 0)) = Done ∅.
Proof.
  split; [|split].
  - apply (proj1 (degenerate_story_count _)). compute_done.
  - apply (proj1 (degenerate_story_count _)). compute_done.
  - apply (proj2 (degenerate_story_count _)). compute_done.
Defined.



(** *** Where the nodes lie *)

Section Extent.
Variable p : Params.

Local Open Scope Qc_scope.

Lemma node_written id c :
  assign_all ∅ (node_writes p) !! id = Some c →
  ∃ i j k, (1 ≤ i ≤ levels p)%Z ∧ (1 ≤ j ≤ nx p)%Z ∧ (1 ≤ k ≤ ny p)%Z
           ∧ id = node_id (ratio_y p) i j k ∧ c = node_xyz p i j k.
Proof. intros Hw%assign_all_empty_lookup. by apply elem_of_node_writes. Qed.

(** A grid line [n ≤ ceil(L/s) + 1] lies at [(n-1)*s], from 0 to less than
    one spacing beyond [L]. *)
Lemma line_extent (L s : Qc) (n : Z) :
  0 < s → (1 ≤ n ≤ ceil (L / s) + 1)%Z →
  0 ≤ float (n - 1) * s ∧ float (n - 1) * s < L + s.
Proof.
  intros Hs [Hn1 Hn2].
  assert (HL : L / s * s = L) by (field; by apply pos_ne_0).
  pose proof (ceil_lt (L / s)) as Hc.
  assert (Hn : float (n - 1) ≤ float (ceil (L / s))).
  { unfold float. apply (proj1 (Z2Qc_inj_le _ _)). lia. }
  assert (H0 : float 0 ≤ float (n - 1)).
  { unfold float. apply (proj1 (Z2Qc_inj_le _ _)). lia. }
  revert HL Hc Hn H0. generalize (L / s) (float (ceil (L / s))) (float (n - 1)).
  intros r c a HL Hc Hn H0. to_Q. split; nra.
Qed.

(** With a whole number of spacings to [L] the last line is at [L]. *)
Lemma line_extent_whole (L s : Qc) (n m : Z) :
  0 < s → L = float m * s → (1 ≤ n ≤ ceil (L / s) + 1)%Z →
  float (n - 1) * s ≤ L.
Proof.
  intros Hs HL [Hn1 Hn2].
  assert (Hr : L / s = float m) by (rewrite HL; field; by apply pos_ne_0).
  rewrite Hr, ceil_float in Hn2. rewrite HL.
  apply Qcmult_le_mono_nonneg_r; [by apply Qclt_le_weak|].
  unfold float. apply (proj1 (Z2Qc_inj_le _ _)). lia.
Qed.

Lemma level_extent (h : Qc) (i L : Z) :
  0 < h → (1 ≤ i ≤ L)%Z →
  0 ≤ float (i - 1) * h ∧ float (i - 1) * h ≤ float (L - 1) * h.
Proof.
  intros Hh [Hi1 Hi2]. split.
  - apply Qcmult_nonneg_nonneg; [|by apply Qclt_le_weak].
    rewrite <- Z2Qc_inj_0. unfold float. apply (proj1 (Z2Qc_inj_le _ _)). lia.
  - apply Qcmult_le_mono_nonneg_r; [by apply Qclt_le_weak|].
    unfold float. apply (proj1 (Z2Qc_inj_le _ _)). lia.
Qed.

End Extent.



(** *** The roof level and the building height *)

Section Roof.
Variable p : Params.

Local Open Scope Qc_scope.

Lemma nest3_app {A} (h : Z → Z → Z → A) ri ri' rj rk :
  nest3 h (ri ++ ri') rj rk = nest3 h ri rj rk ++ nest3 h ri' rj rk.
Proof. unfold nest3. apply bind_app. Qed.

Lemma range_snoc lo hi : (lo ≤ hi)%Z → range lo (hi + 1) = range lo hi ++ [hi].
Proof.
  intros. unfold range.
  replace (hi + 1 - lo)%Z with ((hi - lo) + 1)%Z by lia.
  rewrite seqZ_app by lia. f_equal.
  replace (lo + (hi - lo))%Z with hi by lia. done.
Qed.

(** The writes of the node cell: all lower levels first, the top level
    last. *)
Lemma node_writes_top :
  (1 ≤ levels p)%Z →
  node_writes p
  = nest3 (λ i j k, (node_id (ratio_y p) i j k, node_xyz p i j k))
      (range 1 (levels p))
      (range 1 (ceil (x_length p / beamSpacingX p) + 2))
      (range 1 (ceil (y_length p / beamSpacingY p) + 2))
    ++ nest3 (λ i j k, (node_id (ratio_y p) i j k, node_xyz p i j k))
         [levels p]
         (range 1 (ceil (x_length p / beamSpacingX p) + 2))
         (range 1 (ceil (y_length p / beamSpacingY p) + 2)).
Proof.
  intros HL. unfold node_writes. rewrite ceil_succ.
  fold (levels p). by rewrite range_snoc, nest3_app by lia.
Qed.

(** The top level is written last and within a level no identifier is
    reused, so the nodes of the top level are never overwritten. *)
Lemma top_level_stored j k :
  (1 ≤ levels p)%Z → (1 ≤ j ≤ nx p)%Z → (1 ≤ k ≤ ny p)%Z →
  assign_all ∅ (node_writes p) !! node_id (ratio_y p) (levels p) j k
  = Some (node_xyz p (levels p) j k).
Proof.
  intros HL Hj Hk. rewrite node_writes_top, assign_all_app by done.
  apply assign_all_lookup_NoDup.
  - rewrite fmap_nest3. cbn [fst].
    apply NoDup_nest3; [apply NoDup_singleton|apply NoDup_range..|].
    intros i j1 k1 i' j2 k2 ->%list_elem_of_singleton _ Hk1%elem_of_range
      ->%list_elem_of_singleton _ Hk2%elem_of_range Heq.
    split; [done|].
    apply (node_id_inj_level p) in Heq; [done|unfold ny; lia..].
  - apply elem_of_nest3. exists (levels p), j, k.
    rewrite list_elem_of_singleton, !elem_of_range. unfold nx, ny in *.
    repeat split; (done || lia).
Qed.

Lemma bldgHeight_le_top :
  0 < storyHeight p →
  bldgHeight p ≤ float (levels p - 1) * storyHeight p.
Proof.
  intros Hh. pose proof (Qle_ceiling (numStories p)) as Hc.
  unfold bldgHeight, levels, ceil, Z.sub.
  revert Hh Hc. generalize (Qceiling (numStories p)).
  intros c Hh Hc. to_Q. nra.
Qed.

Lemma bldgHeight_whole (n : Z) :
  numStories p = float n →
  float (levels p - 1) * storyHeight p = bldgHeight p.
Proof.
  intros Hn. unfold bldgHeight, levels. rewrite Hn, ceil_float. float_ring.
Qed.

End Roof.



(** *** The rows of the member tables *)

Section Rows.
Variable p : Params.

Local Open Scope Qc_scope.

Lemma column_written id e :
  assign_all ∅ (column_writes p) !! id = Some e →
  ∃ i j k, (1 ≤ i ≤ levels p - 1)%Z ∧ (1 ≤ j ≤ cols_x p)%Z
           ∧ (1 ≤ k ≤ cols_y p)%Z ∧ id = column_mID i j k
           ∧ e = column_row (bay_ratio_y p) (ratio_y p) i j k.
Proof. intros Hw%assign_all_empty_lookup. by apply elem_of_column_writes. Qed.

Lemma lt_plus_pos (a d : Qc) : 0 < d → a < a + d.
Proof.
  intros Hd. rewrite <- (Qcplus_0_r a) at 1. by apply Qcplus_lt_mono_l.
Qed.

Lemma ratio_y_pos : valid p → 0 < ratio_y p + 1.
Proof.
  intros (_&_&_&Hy&_&_&_&Hs). apply Qcplus_pos_pos; [|done].
  apply Qcmult_pos_pos; [done|by apply Qcinv_pos].
Qed.

End Rows.



(** *** Consecutive identifiers within a level *)

Section Dense.
Variable p : Params.

Local Open Scope Qc_scope.

Lemma ratio_y_whole (n : Z) :
  beamSpacingY p ≠ 0 → y_length p = float n * beamSpacingY p →
  ratio_y p = float n.
Proof. intros Hs Hn. unfold ratio_y. rewrite Hn. by field. Qed.

Lemma node_id_whole (n i j k : Z) :
  node_id (float n) i j k = float (1000 * i + ((j - 1) * (n + 1) + k)).
Proof. unfold node_id. float_ring. Qed.

Lemma grid_index_of_offset (w t : Z) :
  (0 < w)%Z →
  (((t - 1) `div` w + 1 - 1) * w + ((t - 1) `mod` w + 1) = t)%Z.
Proof. intros. pose proof (Z.div_mod (t - 1) w). lia. Qed.

End Dense.



(** *** The floor grid and the column stacks *)

Section Framing.
Variable p : Params.

Local Open Scope Qc_scope.

Lemma beam_stored id e :
  NoDup (beam_ids p) → (id, e) ∈ beam_writes p →
  assign_all ∅ (beam_writes p) !! id = Some e.
Proof. intros. by apply assign_all_lookup_NoDup. Qed.

Lemma column_stored id e :
  NoDup (column_ids p) → (id, e) ∈ column_writes p →
  assign_all ∅ (column_writes p) !! id = Some e.
Proof. intros. by apply assign_all_lookup_NoDup. Qed.

(** The beam of the first pass between two neighbours on an x-line. *)
Lemma passA_joins l j k :
  (2 ≤ l ≤ levels p)%Z → (1 ≤ j ≤ nx p)%Z → (1 ≤ k)%Z → (k + 1 ≤ ny p)%Z →
  ∃ id e, (id, e) ∈ passA_writes p
    ∧ nodeA e = node_id (ratio_y p) l j k
    ∧ nodeB e = node_id (ratio_y p) l j (k + 1).
Proof.
  intros. exists (passA_mID (l - 1) j k), (passA_row (ratio_y p) (l - 1) j k).
  split.
  - apply elem_of_passA_writes. exists (l - 1)%Z, j, k.
    repeat split; (done || lia).
  - cbn [passA_row beam nodeA nodeB].
    rewrite passA_nodeB_node_id, beam_nodeA_node_id.
    by replace (l - 1 + 1)%Z with l by lia.
Qed.

(** The beam of the second pass between two neighbours on a y-line. *)
Lemma passB_joins l j k :
  (2 ≤ l ≤ levels p)%Z → (1 ≤ j)%Z → (j + 1 ≤ nx p)%Z → (1 ≤ k ≤ ny p)%Z →
  ∃ id e, (id, e) ∈ passB_writes p
    ∧ nodeA e = node_id (ratio_y p) l j k
    ∧ nodeB e = node_id (ratio_y p) l (j + 1) k.
Proof.
  intros. exists (passB_mID (l - 1) j k), (passB_row (ratio_y p) (l - 1) j k).
  split.
  - apply elem_of_passB_writes. exists (l - 1)%Z, j, k.
    repeat split; (done || lia).
  - cbn [passB_row beam nodeA nodeB].
    rewrite passB_nodeB_node_id, beam_nodeA_node_id.
    by replace (l - 1 + 1)%Z with l by lia.
Qed.

(** Every grid point above ground is an end of a beam of each pass. *)
Lemma node_touched l j k :
  (2 ≤ nx p)%Z → (2 ≤ ny p)%Z →
  (2 ≤ l ≤ levels p)%Z → (1 ≤ j ≤ nx p)%Z → (1 ≤ k ≤ ny p)%Z →
  (∃ id e, (id, e) ∈ passA_writes p
     ∧ (nodeA e = node_id (ratio_y p) l j k
        ∨ nodeB e = node_id (ratio_y p) l j k))
  ∧ (∃ id e, (id, e) ∈ passB_writes p
       ∧ (nodeA e = node_id (ratio_y p) l j k
          ∨ nodeB e = node_id (ratio_y p) l j k)).
Proof.
  intros Hnx Hny Hl Hj Hk. split.
  - destruct (decide (k + 1 ≤ ny p)%Z).
    + destruct (passA_joins l j k) as (id & e & ? & ? & ?); [done || lia..|].
      exists id, e. auto.
    + destruct (passA_joins l j (k - 1)) as (id & e & ? & ? & HB);
        [done || lia..|].
      exists id, e. split; [done|right].
      by replace (k - 1 + 1)%Z with k in HB by lia.
  - destruct (decide (j + 1 ≤ nx p)%Z).
    + destruct (passB_joins l j k) as (id & e & ? & ? & ?); [done || lia..|].
      exists id, e. auto.
    + destruct (passB_joins l (j - 1) k) as (id & e & ? & ? & HB);
        [done || lia..|].
      exists id, e. split; [done|right].
      by replace (j - 1 + 1)%Z with j in HB by lia.
Qed.

Lemma column_stack_step m r i j k :
  column_nodeA m r i j k + float 1000 = column_nodeA m r (i + 1) j k.
Proof. unfold column_nodeA. float_ring. Qed.

End Framing.







(** *** Which grid point a reused identifier keeps *)

Section Overwrites.
Variable p : Params.

Local Open Scope Qc_scope.

Lemma node_writes_upto_levels : node_writes p = node_writes_upto p (levels p).
Proof. unfold node_writes, node_writes_upto, levels. by rewrite ceil_succ. Qed.

Lemma node_writes_upto_succ L :
  (0 ≤ L)%Z →
  node_writes_upto p (L + 1)
  = node_writes_upto p L ++ node_writes_at p (L + 1).
Proof.
  intros. unfold node_writes_upto, node_writes_at.
  by rewrite range_snoc, nest3_app by lia.
Qed.

Lemma elem_of_node_writes_at L id c :
  (id, c) ∈ node_writes_at p L ↔
  ∃ j k, (1 ≤ j ≤ nx p)%Z ∧ (1 ≤ k ≤ ny p)%Z
         ∧ id = node_id (ratio_y p) L j k ∧ c = node_xyz p L j k.
Proof.
  unfold node_writes_at. rewrite elem_of_nest3.
  setoid_rewrite elem_of_range. setoid_rewrite list_elem_of_singleton.
  unfold nx, ny. split.
  - intros (i & j & k & [= -> ->] & -> & ? & ?). exists j, k.
    repeat split; lia.
  - intros (j & k & ? & ? & -> & ->). exists L, j, k.
    repeat split; lia.
Qed.

Lemma NoDup_node_writes_at L : NoDup (node_writes_at p L).*1.
Proof.
  unfold node_writes_at. rewrite fmap_nest3. cbn [fst].
  apply NoDup_nest3; [apply NoDup_singleton|apply NoDup_range..|].
  intros i j1 k1 i' j2 k2 ->%list_elem_of_singleton _ Hk1%elem_of_range
    ->%list_elem_of_singleton _ Hk2%elem_of_range Heq.
  split; [done|].
  apply (node_id_inj_level p) in Heq; [done|unfold ny; lia..].
Qed.

Lemma node_writes_upto_keeps (n : nat) id c :
  assign_all ∅ (node_writes_upto p (Z.of_nat n)) !! id = Some c →
  keeps_highest p (Z.of_nat n) id c.
Proof.
  revert id c. induction n as [|n IH]; intros id c Hm.
  { unfold node_writes_upto in Hm. rewrite range_nil in Hm by done.
    unfold assign_all in Hm. cbn [nest3 mbind list_bind foldl] in Hm.
    by rewrite lookup_empty in Hm. }
  rewrite Nat2Z.inj_succ, <- Z.add_1_r in *.
  rewrite node_writes_upto_succ, assign_all_app in Hm by lia.
  set (L := (Z.of_nat n + 1)%Z) in *.
  destruct (decide (id ∈ (node_writes_at p L).*1)) as [Hin|Hout].
  - apply list_elem_of_fmap in Hin as ([id' c'] & -> & Hin).
    rewrite (assign_all_lookup_NoDup _ _ _ c') in Hm
      by (done || apply NoDup_node_writes_at).
    injection Hm as <-.
    apply elem_of_node_writes_at in Hin as (j & k & Hj & Hk & Hid & ->).
    cbn [fst] in *. subst id'. exists L, j, k.
    split; [lia|]. do 4 (split; [done|]).
    intros i' j' k' Hi' Hj' Hk' Heq. split; [lia|]. intros ->.
    by apply (node_id_inj_level p) in Heq.
  - rewrite assign_all_lookup_None in Hm by done.
    destruct (IH id c Hm) as (i & j & k & Hi & Hj & Hk & -> & -> & Hmax).
    exists i, j, k. do 5 (split; [done || lia|]).
    intros i' j' k' Hi' Hj' Hk' Heq.
    destruct (decide (i' = L)) as [->|Hne].
    + destruct Hout. apply list_elem_of_fmap.
      exists (node_id (ratio_y p) L j' k', node_xyz p L j' k').
      split; [by rewrite Heq|]. apply elem_of_node_writes_at. by exists j', k'.
    + apply Hmax; (done || lia).
Qed.

End Overwrites.



(** *** Where the columns stand *)

Section ColumnPositions.
Variable p : Params.

Local Open Scope Qc_scope.

Lemma column_on_grid_line (m : Z) id e :
  valid p → columns_on_grid p m →
  (id, e) ∈ column_writes p →
  ∃ i j k, (1 ≤ i ≤ levels p - 1)%Z ∧ (1 ≤ j ≤ cols_x p)%Z
           ∧ (1 ≤ k ≤ cols_y p)%Z ∧ id = column_mID i j k
           ∧ (1 ≤ j ≤ nx p)%Z ∧ (1 ≤ 1 + (k - 1) * m ≤ ny p)%Z
           ∧ nodeA e = node_id (ratio_y p) i j (1 + (k - 1) * m)
           ∧ nodeB e = node_id (ratio_y p) (i + 1) j (1 + (k - 1) * m).
Proof.
  intros Hv (Hm & Hy & Hx)
    (i & j & k & ? & ? & ? & -> & ->)%elem_of_column_writes.
  destruct (valid_nonzero p Hv) as (_ & _ & _ & Hsy).
  assert (1 ≤ m)%Z.
  { destruct Hv as (_&_&_&_&_&?&_&?). by eapply whole_ratio_pos. }
  exists i, j, k. rewrite (bay_ratio_y_whole p m Hsy Hm).
  cbn [column_row column nodeA nodeB].
  rewrite column_nodeB_node_id, column_nodeA_node_id.
  repeat split; (done || nia).
Qed.

End ColumnPositions.


